(** * AVL tree (AVL-Tree/avl.c, avl.h, bstnode.h): embedding and verification

    The C module keeps a binary search tree of [int] keys and [void *]
    values, rebalanced by rotations after each insertion.  Nodes are owned
    exclusively by their parent (every node comes from its own [malloc] in
    [insert_node] and is linked exactly once), so a node pointer is modelled
    by the subtree it points to, and the in-place updates of the source by
    rebuilding the node.

    - [int] values are integers of [Z]; arithmetic on them wraps to 32 bits
      ([int_wrap]).
    - A computation is an [option]: [None] stands for a dereference of a
      null pointer, at which the C program has no defined result.
    - [malloc] in [insert_node] is taken to succeed (the source dereferences
      its result unchecked); in [createAVLTree], where the source tests the
      result, the outcome of the allocation is an argument.
    - The output of [print_tree] is the string written to [stdout]; the
      effect of [freeTree] is the list of the blocks passed to [free], in
      the order of the calls, a node being named by its key. *)

From Stdlib Require Import ZArith List Bool Lia Sorted.
From Stdlib Require Import Permutation Ascii String DecimalString.
Import ListNotations.
Local Open Scope Z_scope.

(** ** Machine integers and pointers *)

Definition INT_MIN : Z := -2147483648.
Definition INT_MAX : Z := 2147483647.

(** The values of the C type [int]. *)
Definition int_range (x : Z) : Prop := INT_MIN <= x <= INT_MAX.

(** Reduction of an integer to the 32-bit two's complement range. *)
Definition int_wrap (x : Z) : Z :=
  (x + 2147483648) mod 4294967296 - 2147483648.

Definition int_add (a b : Z) : Z := int_wrap (a + b).
Definition int_sub (a b : Z) : Z := int_wrap (a - b).

(** [#define MAX(a, b) ((a) > (b) ? (a) : (b))] *)
Definition MAX (a b : Z) : Z := if a >? b then a else b.

(** A [void *] value: an address, with 0 for the null pointer. *)
Definition ptr : Type := Z.
Definition NULL : ptr := 0.

(** ** Computations that may dereference a null pointer *)

Notation "x <- c ;; k" := (match c with Some x => k | None => None end)
  (at level 61, c at next level, right associativity).

(** The short-circuit [a && b] of C, where evaluating [b] may fail. *)
Definition and_then (a : bool) (b : option bool) : option bool :=
  if a then b else Some false.

(** ** Data model (bstnode.h, avl.h) *)

(** A [BSTNode *]: [Null], or a node with the fields of [struct BSTNode]
    in the order of their declaration. *)
Inductive BSTNode : Type :=
| Null
| Node (key : Z) (value : ptr) (hgt : Z) (left right : BSTNode).

(** [struct AVLTree]: the holder of the root pointer. *)
Record AVLTree : Type := mkAVLTree { root : BSTNode }.

(** An [AVLTree *]: [None] is the null handle. *)
Definition handle : Type := option AVLTree.

(** [node->key], undefined on a null pointer. *)
Definition node_key (node : BSTNode) : option Z :=
  match node with
  | Null => None
  | Node k _ _ _ _ => Some k
  end.

(** ** Operations (avl.c) *)

(** [createAVLTree]: [alloc] tells whether [malloc] returned a block. *)
Definition createAVLTree (alloc : bool) : handle :=
  if alloc then Some (mkAVLTree Null) else None.

(** [height]: the height field of the node, 0 for [NULL]. *)
Definition height (node : BSTNode) : Z :=
  match node with
  | Null => 0
  | Node _ _ h _ _ => h
  end.

(** [rotateRight]: the left child becomes the root of the subtree; the
    heights of the two moved nodes are recomputed, the lower one first. *)
Definition rotateRight (node : BSTNode) : option BSTNode :=
  match node with
  | Node k v _ (Node lk lv _ ll lr) r =>
      let node' := Node k v (int_add 1 (MAX (height lr) (height r))) lr r in
      Some (Node lk lv (int_add 1 (MAX (height ll) (height node'))) ll node')
  | _ => None
  end.

(** [rotateLeft]: the mirror image of [rotateRight]. *)
Definition rotateLeft (node : BSTNode) : option BSTNode :=
  match node with
  | Node k v _ l (Node rk rv _ rl rr) =>
      let node' := Node k v (int_add 1 (MAX (height l) (height rl))) l rl in
      Some (Node rk rv (int_add 1 (MAX (height node') (height rr))) node' rr)
  | _ => None
  end.

(** The second half of [insert_node] (from the computation of [balance] to
    the final [return root]): the four rebalancing cases, tested in the
    order of the source. *)
Definition rebalance (key : Z) (root : BSTNode) : option BSTNode :=
  match root with
  | Null => None
  | Node k v h l r =>
      let balance := int_sub (height r) (height l) in
      (* Left-left *)
      c <- and_then (balance <? -1) (lk <- node_key l ;; Some (key <? lk)) ;;
      if c then rotateRight root else
      (* Right-right *)
      c <- and_then (balance >? 1) (rk <- node_key r ;; Some (key >? rk)) ;;
      if c then rotateLeft root else
      (* Left-right *)
      c <- and_then (balance <? -1) (lk <- node_key l ;; Some (key >? lk)) ;;
      if c then (l' <- rotateLeft l ;; rotateRight (Node k v h l' r)) else
      (* Right-left *)
      c <- and_then (balance >? 1) (rk <- node_key r ;; Some (key <? rk)) ;;
      if c then (r' <- rotateRight r ;; rotateLeft (Node k v h l r')) else
      Some root
  end.

(** [insert_node]: descent by key, creation of a leaf of height 1 at a null
    position or update of the value at an equal key, then on the way back
    the height update and the rebalancing of each node of the path. *)
Fixpoint insert_node (key : Z) (value : ptr) (root : BSTNode)
  : option BSTNode :=
  match root with
  | Null => Some (Node key value 1 Null Null)
  | Node k v h l r =>
      s <- (if key >? k then
              r' <- insert_node key value r ;; Some (v, l, r')
            else if key <? k then
              l' <- insert_node key value l ;; Some (v, l', r)
            else Some (value, l, r)) ;;
      let '(v', l', r') := s in
      rebalance key
        (Node k v' (int_add 1 (MAX (height l') (height r'))) l' r')
  end.

(** [insert_avl]: the result and the handle with the tree it now holds. *)
Definition insert_avl (key : Z) (value : ptr) (tree : handle)
  : option (bool * handle) :=
  match tree with
  | Some t =>
      r <- insert_node key value (root t) ;;
      Some (true, Some (mkAVLTree r))
  | None => Some (false, None)
  end.

(** [delete_avl]: [return NULL; //TODO]; the tree is not touched. *)
Definition delete_avl (key : Z) (tree : handle) : ptr * handle :=
  (NULL, tree).

(** [lookup]: descent by key. *)
Fixpoint lookup (key : Z) (tree : BSTNode) : ptr :=
  match tree with
  | Null => NULL
  | Node k v _ l r =>
      if k =? key then v
      else if key <? k then lookup key l
      else lookup key r
  end.

(** [lookup_avl] *)
Definition lookup_avl (key : Z) (tree : handle) : ptr :=
  match tree with
  | None => NULL
  | Some t => lookup key (root t)
  end.

(** ** Diagnostics and teardown (avl.c) *)

(** [#define INDENT 5] *)
Definition INDENT : Z := 5.

(** [n] space characters. *)
Fixpoint spaces (n : nat) : string :=
  match n with
  | O => EmptyString
  | S n' => String " "%char (spaces n')
  end.

(** The newline character. *)
Definition newline : string := String (ascii_of_nat 10) EmptyString.

(** The conversion [%4d] of [printf]: the decimal digits, with a minus
    sign for a negative number, padded with spaces on the left to four
    characters. *)
Definition fmt_4d (x : Z) : string :=
  let digits := NilZero.string_of_int (Z.to_int x) in
  (spaces (4 - String.length digits) ++ digits)%string.

(** [print_nodes]: the text written for the subtree.  The loop prints
    [indent] spaces (none when [indent] is not positive), then comes the
    key, then the two subtrees five columns further. *)
Fixpoint print_nodes (root : BSTNode) (indent : Z) : string :=
  match root with
  | Null => EmptyString
  | Node k _ _ l r =>
      (spaces (Z.to_nat indent) ++ fmt_4d k ++ newline ++
       print_nodes l (int_add indent INDENT) ++
       print_nodes r (int_add indent INDENT))%string
  end.

(** [print_tree]: [tree->root] is read without a test of [tree]. *)
Definition print_tree (tree : handle) : option string :=
  match tree with
  | None => None
  | Some t => Some (print_nodes (root t) 0)
  end.

(** A block passed to [free]: a node, named by its key, or the
    [struct AVLTree] itself. *)
Inductive block : Type :=
| NodeBlock (key : Z)
| TreeBlock.

(** [freeNode]: the nodes freed, in the order of the calls of [free]. *)
Fixpoint freeNode (node : BSTNode) : list Z :=
  match node with
  | Null => []
  | Node k _ _ l r => freeNode l ++ freeNode r ++ [k]
  end.

(** [freeTree]: nothing on a null handle; the nodes, then the handle. *)
Definition freeTree (tree : handle) : list block :=
  match tree with
  | None => []
  | Some t => map NodeBlock (freeNode (root t)) ++ [TreeBlock]
  end.

(** ** Sequences of calls of the public operations *)

Inductive op : Type :=
| Insert (key : Z) (value : ptr)
| Delete (key : Z)
| Lookup (key : Z).

(** The keys passed to the operations are C [int]s. *)
Definition op_int (o : op) : Prop :=
  match o with
  | Insert k _ => int_range k
  | Delete k => int_range k
  | Lookup k => int_range k
  end.

(** One call: the handle after it ([None] when the call has no defined
    result). *)
Definition run_op (o : op) (tree : handle) : option handle :=
  match o with
  | Insert k v => r <- insert_avl k v tree ;; Some (snd r)
  | Delete k => Some (snd (delete_avl k tree))
  | Lookup _ => Some tree
  end.

Fixpoint run_ops (ops : list op) (tree : handle) : option handle :=
  match ops with
  | [] => Some tree
  | o :: ops' => t <- run_op o tree ;; run_ops ops' t
  end.

(** The handles a client can hold: [createAVLTree] followed by calls of the
    public operations with [int] keys. *)
Definition reachable (tree : handle) : Prop :=
  exists alloc ops,
    Forall op_int ops /\ run_ops ops (createAVLTree alloc) = Some tree.

(** ** Specification vocabulary *)

(** Every key of the subtree satisfies [P]. *)
Fixpoint all_keys (P : Z -> Prop) (t : BSTNode) : Prop :=
  match t with
  | Null => True
  | Node k _ _ l r => P k /\ all_keys P l /\ all_keys P r
  end.

(** Search-tree order: at every node the keys on the left are smaller and
    the keys on the right are larger than the key of the node. *)
Fixpoint BST (t : BSTNode) : Prop :=
  match t with
  | Null => True
  | Node k _ _ l r =>
      all_keys (fun x => x < k) l /\ all_keys (fun x => k < x) r /\
      BST l /\ BST r
  end.

(** The keys met by an in-order traversal. *)
Fixpoint inorder (t : BSTNode) : list Z :=
  match t with
  | Null => []
  | Node k _ _ l r => inorder l ++ k :: inorder r
  end.

(** The height of the subtree as a tree: the number of nodes on its longest
    branch, whatever the height fields hold. *)
Fixpoint tree_height (t : BSTNode) : Z :=
  match t with
  | Null => 0
  | Node _ _ _ l r => 1 + Z.max (tree_height l) (tree_height r)
  end.

Fixpoint node_count (t : BSTNode) : Z :=
  match t with
  | Null => 0
  | Node _ _ _ l r => 1 + node_count l + node_count r
  end.

(** Every height field holds one more than the larger of the heights read
    by [height] on the two children. *)
Fixpoint heights_ok (t : BSTNode) : Prop :=
  match t with
  | Null => True
  | Node _ _ h l r =>
      h = 1 + Z.max (height l) (height r) /\ heights_ok l /\ heights_ok r
  end.

(** At every node the two subtrees differ in height by at most one. *)
Fixpoint balanced (t : BSTNode) : Prop :=
  match t with
  | Null => True
  | Node _ _ _ l r =>
      Z.abs (tree_height l - tree_height r) <= 1 /\ balanced l /\ balanced r
  end.

(** Height fields and balance together, on the height fields: the form in
    which the code reads and maintains them. *)
Fixpoint avl (t : BSTNode) : Prop :=
  match t with
  | Null => True
  | Node _ _ h l r =>
      h = 1 + Z.max (height l) (height r) /\
      -1 <= height r - height l <= 1 /\
      avl l /\ avl r
  end.

(** The subtree on the side of [key] is the higher one. *)
Definition heavy (key : Z) (t : BSTNode) : Prop :=
  match t with
  | Null => False
  | Node k _ _ l r =>
      (key < k /\ height l = height r + 1) \/
      (key > k /\ height r = height l + 1)
  end.

(** The invariant of the trees held by a handle. *)
Definition Inv (t : BSTNode) : Prop :=
  BST t /\ avl t /\ all_keys int_range t.

Definition Inv_handle (tree : handle) : Prop :=
  match tree with
  | None => True
  | Some t => Inv (root t)
  end.

(** The tree with every value forgotten: keys, height fields and shape. *)
Fixpoint erase_values (t : BSTNode) : BSTNode :=
  match t with
  | Null => Null
  | Node k _ h l r => Node k NULL h (erase_values l) (erase_values r)
  end.

(** The tree with the value at [key] replaced, nothing else touched. *)
Fixpoint set_value (key : Z) (value : ptr) (t : BSTNode) : BSTNode :=
  match t with
  | Null => Null
  | Node k v h l r =>
      if key >? k then Node k v h l (set_value key value r)
      else if key <? k then Node k v h (set_value key value l) r
      else Node k value h l r
  end.

(** The tree has a node with this key and this value. *)
Fixpoint binds (key : Z) (value : ptr) (t : BSTNode) : Prop :=
  match t with
  | Null => False
  | Node k v _ l r =>
      (k = key /\ v = value) \/ binds key value l \/ binds key value r
  end.

(** The finite map that a sequence of calls describes: an insertion binds
    its key, the later insertion of a key wins, and the other calls change
    nothing. *)
Definition apply_op (m : Z -> ptr) (o : op) : Z -> ptr :=
  match o with
  | Insert k v => fun x => if x =? k then v else m x
  | Delete _ => m
  | Lookup _ => m
  end.

Definition model (ops : list op) : Z -> ptr :=
  fold_left apply_op ops (fun _ => NULL).

(** The keys of the insertions of a sequence of calls. *)
Definition inserted_keys (ops : list op) : list Z :=
  flat_map (fun o => match o with Insert k _ => [k] | _ => [] end) ops.

(** The nodes in the order of a pre-order traversal, each with its depth
    below the root of the traversal, which has depth [depth]. *)
Fixpoint preorder (t : BSTNode) (depth : Z) : list (Z * Z) :=
  match t with
  | Null => []
  | Node k _ _ l r =>
      (depth, k) :: preorder l (depth + 1) ++ preorder r (depth + 1)
  end.

(** One line of the printed tree: five spaces per level, the key in
    [%4d], a newline. *)
Definition print_line (p : Z * Z) : string :=
  (spaces (Z.to_nat (INDENT * fst p)) ++ fmt_4d (snd p) ++ newline)%string.

Definition print_lines (ps : list (Z * Z)) : string :=
  fold_right (fun p s => (print_line p ++ s)%string) EmptyString ps.

(** ** Sample data *)

(** The insertions of scenario 3 of the specification, with three distinct
    non-null values, and a removal and a search in between. *)
Definition sample_ops : list op :=
  [Insert 30 101; Insert 10 102; Delete 10; Lookup 30; Insert 20 103].

(** The tree they build. *)
Definition sample_tree : AVLTree :=
  mkAVLTree (Node 20 103 2 (Node 10 102 1 Null Null)
                           (Node 30 101 1 Null Null)).

(** * Proofs *)

(** ** Machine arithmetic *)

Lemma int_wrap_id (x : Z) : INT_MIN <= x <= INT_MAX -> int_wrap x = x.
Proof.
  unfold INT_MIN, INT_MAX, int_wrap. intros H.
  rewrite Z.mod_small; lia.
Qed.

Lemma MAX_max (a b : Z) : MAX a b = Z.max a b.
Proof. unfold MAX. destruct (Z.gtb_spec a b); lia. Qed.

Lemma int_add_small (a b : Z) :
  INT_MIN <= a + b <= INT_MAX -> int_add a b = a + b.
Proof. apply int_wrap_id. Qed.

Lemma int_sub_small (a b : Z) :
  INT_MIN <= a - b <= INT_MAX -> int_sub a b = a - b.
Proof. apply int_wrap_id. Qed.

(** Unfolding of the specification predicates at a constructor. *)
Ltac spec_unfold :=
  cbn [all_keys BST inorder tree_height node_count heights_ok balanced avl
       heavy height node_key erase_values] in *.

(** ** Heights *)

Lemma avl_height_nonneg (t : BSTNode) : avl t -> 0 <= height t.
Proof.
  induction t as [|k v h l IHl r IHr]; spec_unfold; [lia|].
  intros (Hh & _ & Hl & Hr). specialize (IHl Hl). specialize (IHr Hr). lia.
Qed.

Lemma avl_height_pos (k : Z) (v : ptr) (h : Z) (l r : BSTNode) :
  avl (Node k v h l r) -> 1 <= h.
Proof.
  spec_unfold. intros (Hh & _ & Hl & Hr).
  apply avl_height_nonneg in Hl, Hr. lia.
Qed.

Lemma avl_tree_height (t : BSTNode) : avl t -> height t = tree_height t.
Proof.
  induction t as [|k v h l IHl r IHr]; spec_unfold; [reflexivity|].
  intros (Hh & _ & Hl & Hr). rewrite <- IHl, <- IHr by assumption. exact Hh.
Qed.

Lemma avl_heights_ok (t : BSTNode) : avl t -> heights_ok t.
Proof.
  induction t as [|k v h l IHl r IHr]; spec_unfold; [trivial|].
  intros (Hh & _ & Hl & Hr). auto.
Qed.

Lemma avl_balanced (t : BSTNode) : avl t -> balanced t.
Proof.
  induction t as [|k v h l IHl r IHr]; spec_unfold; [trivial|].
  intros (Hh & Hb & Hl & Hr).
  rewrite <- (avl_tree_height l), <- (avl_tree_height r) by assumption.
  repeat split; auto; lia.
Qed.

(** ** Rebalancing keeps heights and balance *)

(** Resolution of the integer tests of the code by linear arithmetic. *)
Ltac decide_tests :=
  repeat match goal with
    | |- context [?a >? ?b] => rewrite (Z.gtb_ltb a b)
    | |- context [?a <? ?b] =>
        first [ rewrite (proj2 (Z.ltb_lt a b)) by lia
              | rewrite (proj2 (Z.ltb_ge a b)) by lia ]
    | |- context [?a =? ?b] =>
        first [ rewrite (proj2 (Z.eqb_eq a b)) by lia
              | rewrite (proj2 (Z.eqb_neq a b)) by lia ]
    end.

(** Removal of the 32-bit reductions whose argument is in range. *)
Ltac int_small :=
  unfold INT_MIN, INT_MAX in *; rewrite ?MAX_max;
  repeat match goal with
    | |- context [int_add ?a ?b] =>
        rewrite (int_add_small a b) by (unfold INT_MIN, INT_MAX; lia)
    | |- context [int_sub ?a ?b] =>
        rewrite (int_sub_small a b) by (unfold INT_MIN, INT_MAX; lia)
    end.

Lemma rebalance_avl (key k : Z) (v : ptr) (l r : BSTNode) :
  avl l -> avl r ->
  height l < INT_MAX -> height r < INT_MAX ->
  -2 <= height r - height l <= 2 ->
  (height r - height l = -2 -> heavy key l) ->
  (height r - height l = 2 -> heavy key r) ->
  exists t',
    rebalance key (Node k v (1 + Z.max (height l) (height r)) l r) = Some t' /\
    avl t' /\
    ((-1 <= height r - height l <= 1 /\
      t' = Node k v (1 + Z.max (height l) (height r)) l r) \/
     (Z.abs (height r - height l) = 2 /\
      height t' = Z.max (height l) (height r))).
Proof.
  intros Hl Hr Bl Br Hb HL HR.
  pose proof (avl_height_nonneg l Hl) as Nl.
  pose proof (avl_height_nonneg r Hr) as Nr.
  assert (Hcases : -1 <= height r - height l <= 1 \/
                   height r - height l = -2 \/ height r - height l = 2) by lia.
  destruct Hcases as [Hc | [Hc | Hc]].
  - (* no rotation *)
    exists (Node k v (1 + Z.max (height l) (height r)) l r).
    split; [|split].
    + cbn [rebalance height]. int_small. decide_tests. reflexivity.
    + spec_unfold. auto.
    + left. auto.
  - (* left subtree two higher *)
    specialize (HL Hc). clear HR.
    destruct l as [|lk lv lh ll lr]; [contradiction|].
    spec_unfold. destruct Hl as (Hlh & Hlb & Hll & Hlr).
    pose proof (avl_height_nonneg ll Hll) as Nll.
    pose proof (avl_height_nonneg lr Hlr) as Nlr.
    destruct HL as [[Hk Hh] | [Hk Hh]].
    + (* Left-left *)
      eexists. split; [|split].
      * cbn [rebalance height node_key and_then]. int_small. decide_tests.
        cbn [and_then rotateRight height]. int_small. reflexivity.
      * spec_unfold. repeat split; auto; lia.
      * right. spec_unfold. lia.
    + (* Left-right *)
      destruct lr as [|ck cv ch cl cr]; [spec_unfold; lia|].
      spec_unfold. destruct Hlr as (Hch & Hcb & Hcl & Hcr).
      pose proof (avl_height_nonneg cl Hcl) as Ncl.
      pose proof (avl_height_nonneg cr Hcr) as Ncr.
      eexists. split; [|split].
      * cbn [rebalance height node_key and_then]. int_small. decide_tests.
        cbn [and_then rotateRight rotateLeft height]. int_small.
        cbn [rotateRight height]. int_small. reflexivity.
      * spec_unfold. repeat split; auto; lia.
      * right. spec_unfold. lia.
  - (* right subtree two higher *)
    specialize (HR Hc). clear HL.
    destruct r as [|rk rv rh rl rr]; [contradiction|].
    spec_unfold. destruct Hr as (Hrh & Hrb & Hrl & Hrr).
    pose proof (avl_height_nonneg rl Hrl) as Nrl.
    pose proof (avl_height_nonneg rr Hrr) as Nrr.
    destruct HR as [[Hk Hh] | [Hk Hh]].
    + (* Right-left *)
      destruct rl as [|ck cv ch cl cr]; [spec_unfold; lia|].
      spec_unfold. destruct Hrl as (Hch & Hcb & Hcl & Hcr).
      pose proof (avl_height_nonneg cl Hcl) as Ncl.
      pose proof (avl_height_nonneg cr Hcr) as Ncr.
      eexists. split; [|split].
      * cbn [rebalance height node_key and_then]. int_small. decide_tests.
        cbn [and_then rotateRight rotateLeft height]. int_small.
        cbn [rotateLeft height]. int_small. reflexivity.
      * spec_unfold. repeat split; auto; lia.
      * right. spec_unfold. lia.
    + (* Right-right *)
      eexists. split; [|split].
      * cbn [rebalance height node_key and_then]. int_small. decide_tests.
        cbn [and_then rotateLeft height]. int_small. reflexivity.
      * spec_unfold. repeat split; auto; lia.
      * right. spec_unfold. lia.
Qed.

(** ** Insertion keeps heights and balance *)

Lemma insert_node_avl (key : Z) (value : ptr) (t : BSTNode) :
  avl t -> height t < INT_MAX ->
  exists t',
    insert_node key value t = Some t' /\
    avl t' /\
    (height t' = height t \/ height t' = height t + 1) /\
    (t <> Null -> height t' = height t + 1 -> heavy key t').
Proof.
  induction t as [|k v h l IHl r IHr]; intros Ht Hlt.
  - exists (Node key value 1 Null Null). spec_unfold.
    repeat split; try lia; try (right; reflexivity).
    intros Hn; now elim Hn.
  - spec_unfold. destruct Ht as (Hh & Hb & Hl & Hr).
    pose proof (avl_height_nonneg l Hl) as Nl.
    pose proof (avl_height_nonneg r Hr) as Nr.
    cbn [insert_node].
    destruct (Z.lt_total key k) as [Hk | [Hk | Hk]].
    + (* into the left subtree *)
      destruct IHl as (l' & El & Hl' & Hg & Hv); [assumption | lia |].
      decide_tests. rewrite El.
      pose proof (avl_height_nonneg l' Hl') as Nl'.
      unfold INT_MAX in Hlt.
      replace (int_add 1 (MAX (height l') (height r)))
        with (1 + Z.max (height l') (height r)) by (int_small; reflexivity).
      destruct (rebalance_avl key k v l' r) as (t' & Et & Ht' & Hc);
        try assumption; try (unfold INT_MAX; lia).
      * intros Hd. apply Hv; [|lia].
        intros ->. spec_unfold. lia.
      * exists t'. split; [exact Et|]. split; [exact Ht'|].
        destruct Hc as [[Hc ->] | [Hc Hh']]; spec_unfold.
        -- split; [lia|]. intros _ Hgrow. left. lia.
        -- split; [lia|]. intros _ Hgrow. lia.
    + (* at this node *)
      subst key. decide_tests.
      replace (int_add 1 (MAX (height l) (height r)))
        with (1 + Z.max (height l) (height r))
        by (unfold INT_MAX in Hlt; int_small; reflexivity).
      destruct (rebalance_avl k k value l r) as (t' & Et & Ht' & Hc);
        try assumption; try lia.
      exists t'. split; [exact Et|]. split; [exact Ht'|].
      destruct Hc as [[Hc ->] | [Hc Hh']]; spec_unfold; [|lia].
      split; [lia|]. intros _ Hgrow. lia.
    + (* into the right subtree *)
      destruct IHr as (r' & Er & Hr' & Hg & Hv); [assumption | lia |].
      decide_tests. rewrite Er.
      pose proof (avl_height_nonneg r' Hr') as Nr'.
      unfold INT_MAX in Hlt.
      replace (int_add 1 (MAX (height l) (height r')))
        with (1 + Z.max (height l) (height r')) by (int_small; reflexivity).
      destruct (rebalance_avl key k v l r') as (t' & Et & Ht' & Hc);
        try assumption; try (unfold INT_MAX; lia).
      * intros Hd. apply Hv; [|lia].
        intros ->. spec_unfold. lia.
      * exists t'. split; [exact Et|]. split; [exact Ht'|].
        destruct Hc as [[Hc ->] | [Hc Hh']]; spec_unfold.
        -- split; [lia|]. intros _ Hgrow. right. lia.
        -- split; [lia|]. intros _ Hgrow. lia.
Qed.

(** ** Rotations keep the keys, the order and the bindings *)

Lemma all_keys_impl (P Q : Z -> Prop) (t : BSTNode) :
  (forall x, P x -> Q x) -> all_keys P t -> all_keys Q t.
Proof.
  intros HPQ. induction t as [|k v h l IHl r IHr]; spec_unfold; [trivial|].
  intros (Hk & Hl & Hr). auto.
Qed.

Lemma rotateRight_all_keys (P : Z -> Prop) (t t' : BSTNode) :
  rotateRight t = Some t' -> all_keys P t -> all_keys P t'.
Proof.
  destruct t as [|k v h [|lk lv lh ll lr] r]; try discriminate.
  cbn [rotateRight]. intros [= <-]. spec_unfold. tauto.
Qed.

Lemma rotateLeft_all_keys (P : Z -> Prop) (t t' : BSTNode) :
  rotateLeft t = Some t' -> all_keys P t -> all_keys P t'.
Proof.
  destruct t as [|k v h l [|rk rv rh rl rr]]; try discriminate.
  cbn [rotateLeft]. intros [= <-]. spec_unfold. tauto.
Qed.

Lemma rotateRight_BST (t t' : BSTNode) :
  rotateRight t = Some t' -> BST t -> BST t'.
Proof.
  destruct t as [|k v h [|lk lv lh ll lr] r]; try discriminate.
  cbn [rotateRight]. intros [= <-]. spec_unfold.
  intros ((Hlk & Hll & Hlr) & Hr & (Hll' & Hlr' & Bll & Blr) & Br).
  repeat split; auto.
  eapply all_keys_impl; [|exact Hr]. cbv beta. intros; lia.
Qed.

Lemma rotateLeft_BST (t t' : BSTNode) :
  rotateLeft t = Some t' -> BST t -> BST t'.
Proof.
  destruct t as [|k v h l [|rk rv rh rl rr]]; try discriminate.
  cbn [rotateLeft]. intros [= <-]. spec_unfold.
  intros (Hl & (Hrk & Hrl & Hrr) & Bl & (Hrl' & Hrr' & Brl & Brr)).
  repeat split; auto.
  eapply all_keys_impl; [|exact Hl]. cbv beta. intros; lia.
Qed.

(** The case analysis of the lookups below: every test of [lookup] is
    decided, by order reasoning on the keys. *)
Ltac lookup_cases :=
  cbn [lookup];
  repeat match goal with
    | |- context [?a =? ?b] => destruct (Z.eqb_spec a b)
    | |- context [?a <? ?b] => destruct (Z.ltb_spec a b)
    end;
  try reflexivity; try lia.

Lemma rotateRight_lookup (t t' : BSTNode) (x : Z) :
  rotateRight t = Some t' -> BST t -> lookup x t' = lookup x t.
Proof.
  destruct t as [|k v h [|lk lv lh ll lr] r]; try discriminate.
  cbn [rotateRight]. intros [= <-]. spec_unfold.
  intros ((Hlk & _) & _). lookup_cases.
Qed.

Lemma rotateLeft_lookup (t t' : BSTNode) (x : Z) :
  rotateLeft t = Some t' -> BST t -> lookup x t' = lookup x t.
Proof.
  destruct t as [|k v h l [|rk rv rh rl rr]]; try discriminate.
  cbn [rotateLeft]. intros [= <-]. spec_unfold.
  intros (_ & (Hrk & _) & _). lookup_cases.
Qed.

(** What [rebalance] can return: the node itself, or one of the four
    rotation patterns applied to it. *)
Lemma rebalance_cases (key k : Z) (v : ptr) (h : Z) (l r t' : BSTNode) :
  rebalance key (Node k v h l r) = Some t' ->
  t' = Node k v h l r \/
  rotateRight (Node k v h l r) = Some t' \/
  rotateLeft (Node k v h l r) = Some t' \/
  (exists l', rotateLeft l = Some l' /\
              rotateRight (Node k v h l' r) = Some t') \/
  (exists r', rotateRight r = Some r' /\
              rotateLeft (Node k v h l r') = Some t').
Proof.
  unfold rebalance.
  destruct (int_sub (height r) (height l) <? -1);
    destruct (int_sub (height r) (height l) >? 1);
    cbn [and_then];
    destruct l as [|lk lv lh ll lr]; destruct r as [|rk rv rh rl rr];
    cbn [node_key]; try discriminate;
    repeat match goal with
      | |- context [if ?c then _ else _] => destruct c
      end;
    intros H; auto;
    try (injection H as <-; auto; fail).
  all: try (destruct (rotateLeft (Node lk lv lh ll lr)) as [l'|] eqn:E;
            [eauto 8 | discriminate]).
  all: try (destruct (rotateRight (Node rk rv rh rl rr)) as [r'|] eqn:E;
            [eauto 8 | discriminate]).
Qed.

Lemma rebalance_all_keys (P : Z -> Prop) (key : Z) (t t' : BSTNode) :
  rebalance key t = Some t' -> all_keys P t -> all_keys P t'.
Proof.
  destruct t as [|k v h l r]; [discriminate|].
  intros H HP. apply rebalance_cases in H.
  destruct H as [-> | [H | [H | [(l' & Hl & H) | (r' & Hr & H)]]]].
  - exact HP.
  - eapply rotateRight_all_keys; eauto.
  - eapply rotateLeft_all_keys; eauto.
  - eapply rotateRight_all_keys; [exact H|].
    spec_unfold. destruct HP as (Hk & HPl & HPr).
    repeat split; auto. eapply rotateLeft_all_keys; eauto.
  - eapply rotateLeft_all_keys; [exact H|].
    spec_unfold. destruct HP as (Hk & HPl & HPr).
    repeat split; auto. eapply rotateRight_all_keys; eauto.
Qed.

Lemma rebalance_BST (key : Z) (t t' : BSTNode) :
  rebalance key t = Some t' -> BST t -> BST t'.
Proof.
  destruct t as [|k v h l r]; [discriminate|].
  intros H HB. apply rebalance_cases in H.
  destruct H as [-> | [H | [H | [(l' & Hl & H) | (r' & Hr & H)]]]].
  - exact HB.
  - eapply rotateRight_BST; eauto.
  - eapply rotateLeft_BST; eauto.
  - eapply rotateRight_BST; [exact H|].
    spec_unfold. destruct HB as (Kl & Kr & Bl & Br).
    repeat split; auto.
    + eapply rotateLeft_all_keys; eauto.
    + eapply rotateLeft_BST; eauto.
  - eapply rotateLeft_BST; [exact H|].
    spec_unfold. destruct HB as (Kl & Kr & Bl & Br).
    repeat split; auto.
    + eapply rotateRight_all_keys; eauto.
    + eapply rotateRight_BST; eauto.
Qed.

Lemma rebalance_lookup (key : Z) (t t' : BSTNode) (x : Z) :
  rebalance key t = Some t' -> BST t -> lookup x t' = lookup x t.
Proof.
  destruct t as [|k v h l r]; [discriminate|].
  intros H HB. apply rebalance_cases in H.
  destruct H as [-> | [H | [H | [(l' & Hl & H) | (r' & Hr & H)]]]].
  - reflexivity.
  - eapply rotateRight_lookup; eauto.
  - eapply rotateLeft_lookup; eauto.
  - spec_unfold. destruct HB as (Kl & Kr & Bl & Br).
    rewrite (rotateRight_lookup _ _ x H).
    + cbn [lookup]. now rewrite (rotateLeft_lookup _ _ x Hl Bl).
    + spec_unfold. repeat split; auto.
      * eapply rotateLeft_all_keys; eauto.
      * eapply rotateLeft_BST; eauto.
  - spec_unfold. destruct HB as (Kl & Kr & Bl & Br).
    rewrite (rotateLeft_lookup _ _ x H).
    + cbn [lookup]. now rewrite (rotateRight_lookup _ _ x Hr Br).
    + spec_unfold. repeat split; auto.
      * eapply rotateRight_all_keys; eauto.
      * eapply rotateRight_BST; eauto.
Qed.

(** ** Insertion keeps the order and binds exactly its key *)

Lemma insert_node_BST (key : Z) (value : ptr) (t t' : BSTNode) :
  BST t -> insert_node key value t = Some t' ->
  BST t' /\
  (forall P : Z -> Prop, all_keys P t -> P key -> all_keys P t') /\
  (forall x, lookup x t' = if x =? key then value else lookup x t).
Proof.
  revert t'. induction t as [|k v h l IHl r IHr]; intros t' HB.
  - cbn [insert_node]. intros [= <-]. spec_unfold.
    repeat split; auto. intros x. lookup_cases.
  - spec_unfold. destruct HB as (Kl & Kr & Bl & Br).
    cbn [insert_node].
    destruct (Z.lt_total key k) as [Hk | [Hk | Hk]]; decide_tests.
    + destruct (insert_node key value l) as [l'|] eqn:El; [|discriminate].
      destruct (IHl l' Bl eq_refl) as (Bl' & Al' & Ll').
      intros H.
      assert (HB : BST (Node k v (int_add 1 (MAX (height l') (height r)))
                          l' r)).
      { spec_unfold. repeat split; auto. }
      split; [eapply rebalance_BST; eauto|]. split.
      * intros P (Pk & Pl & Pr) Pkey.
        eapply rebalance_all_keys; [exact H|]. spec_unfold. auto.
      * intros x. rewrite (rebalance_lookup _ _ _ x H HB).
        cbn [lookup]. rewrite Ll'. lookup_cases.
    + subst key. intros H.
      assert (HB : BST (Node k value (int_add 1 (MAX (height l) (height r)))
                          l r)).
      { spec_unfold. repeat split; auto. }
      split; [eapply rebalance_BST; eauto|]. split.
      * intros P (Pk & Pl & Pr) Pkey.
        eapply rebalance_all_keys; [exact H|]. spec_unfold. auto.
      * intros x. rewrite (rebalance_lookup _ _ _ x H HB). lookup_cases.
    + destruct (insert_node key value r) as [r'|] eqn:Er; [|discriminate].
      destruct (IHr r' Br eq_refl) as (Br' & Ar' & Lr').
      intros H.
      assert (HB : BST (Node k v (int_add 1 (MAX (height l) (height r')))
                          l r')).
      { spec_unfold. repeat split; auto. }
      split; [eapply rebalance_BST; eauto|]. split.
      * intros P (Pk & Pl & Pr) Pkey.
        eapply rebalance_all_keys; [exact H|]. spec_unfold. auto.
      * intros x. rewrite (rebalance_lookup _ _ _ x H HB).
        cbn [lookup]. rewrite Lr'. lookup_cases.
Qed.

(** ** The heights of the trees of the program fit in an [int]

    A search tree with [int] keys has at most [2^32] nodes, and a balanced
    tree of height [h] has at least [2^(h/2) - 1] nodes: no height field
    comes near [INT_MAX], and the additions of the code never wrap. *)

Lemma all_keys_and (P Q : Z -> Prop) (t : BSTNode) :
  all_keys P t -> all_keys Q t -> all_keys (fun x => P x /\ Q x) t.
Proof.
  induction t as [|k v h l IHl r IHr]; spec_unfold; [trivial|].
  intros (Pk & Pl & Pr) (Qk & Ql & Qr). auto.
Qed.

Lemma node_count_nonneg (t : BSTNode) : 0 <= node_count t.
Proof. induction t; spec_unfold; lia. Qed.

Lemma BST_node_count (t : BSTNode) (lo hi : Z) :
  BST t -> all_keys (fun x => lo <= x <= hi) t ->
  node_count t <= Z.max 0 (hi - lo + 1).
Proof.
  revert lo hi. induction t as [|k v h l IHl r IHr]; intros lo hi;
    spec_unfold; [lia|].
  intros (Kl & Kr & Bl & Br) (Rk & Rl & Rr).
  assert (Hl : node_count l <= Z.max 0 (k - 1 - lo + 1)).
  { apply IHl; [assumption|].
    eapply all_keys_impl; [|exact (all_keys_and _ _ _ Kl Rl)].
    cbv beta. intros; lia. }
  assert (Hr : node_count r <= Z.max 0 (hi - (k + 1) + 1)).
  { apply IHr; [assumption|].
    eapply all_keys_impl; [|exact (all_keys_and _ _ _ Kr Rr)].
    cbv beta. intros; lia. }
  lia.
Qed.

Lemma avl_node_count (t : BSTNode) :
  avl t -> 2 ^ (height t / 2) <= node_count t + 1.
Proof.
  induction t as [|k v h l IHl r IHr]; spec_unfold.
  - intros _. reflexivity.
  - intros (Hh & Hb & Hl & Hr).
    specialize (IHl Hl). specialize (IHr Hr).
    pose proof (avl_height_nonneg l Hl) as Nl.
    pose proof (avl_height_nonneg r Hr) as Nr.
    pose proof (node_count_nonneg l) as Cl.
    pose proof (node_count_nonneg r) as Cr.
    destruct (Z.eq_dec h 1) as [-> | Hne].
    + change (2 ^ (1 / 2)) with 1. lia.
    + assert (Hq : 1 <= h / 2) by (apply Z.div_le_lower_bound; lia).
      assert (Hlq : h / 2 - 1 <= height l / 2).
      { replace (h / 2 - 1) with ((h + (-1) * 2) / 2)
          by (rewrite Z.div_add by lia; lia).
        apply Z.div_le_mono; lia. }
      assert (Hrq : h / 2 - 1 <= height r / 2).
      { replace (h / 2 - 1) with ((h + (-1) * 2) / 2)
          by (rewrite Z.div_add by lia; lia).
        apply Z.div_le_mono; lia. }
      replace (h / 2) with (Z.succ (h / 2 - 1)) by lia.
      rewrite Z.pow_succ_r by lia.
      pose proof (Z.pow_le_mono_r 2 _ _ ltac:(lia) Hlq).
      pose proof (Z.pow_le_mono_r 2 _ _ ltac:(lia) Hrq).
      lia.
Qed.

Lemma Inv_height_bound (t : BSTNode) : Inv t -> 0 <= height t <= 65.
Proof.
  intros (HB & HA & HR).
  pose proof (avl_height_nonneg t HA) as Hn.
  pose proof (avl_node_count t HA) as Hc.
  pose proof (BST_node_count t INT_MIN INT_MAX HB HR) as Hs.
  unfold INT_MIN, INT_MAX in Hs.
  split; [exact Hn|].
  destruct (Z_le_gt_dec (height t) 65) as [Hle | Hgt]; [exact Hle|].
  assert (Hq : 33 <= height t / 2) by (apply Z.div_le_lower_bound; lia).
  pose proof (Z.pow_le_mono_r 2 _ _ ltac:(lia) Hq) as Hp.
  change (2 ^ 33) with 8589934592 in Hp. lia.
Qed.

(** ** The invariant along the public operations *)

Lemma insert_node_Inv (key : Z) (value : ptr) (t : BSTNode) :
  Inv t -> int_range key ->
  exists t',
    insert_node key value t = Some t' /\
    Inv t' /\
    (forall x, lookup x t' = if x =? key then value else lookup x t).
Proof.
  intros HI Hkey. pose proof (Inv_height_bound t HI) as Hb.
  destruct HI as (HB & HA & HR).
  destruct (insert_node_avl key value t HA) as (t' & Et & HA' & _).
  { unfold INT_MAX. lia. }
  destruct (insert_node_BST key value t t' HB Et) as (HB' & HK & HL).
  exists t'. split; [exact Et|]. split; [|exact HL].
  repeat split; auto.
Qed.

Lemma run_op_Inv (o : op) (tree : handle) :
  Inv_handle tree -> op_int o ->
  exists tree',
    run_op o tree = Some tree' /\ Inv_handle tree' /\
    (tree' = None <-> tree = None).
Proof.
  intros HI Ho. destruct o as [k v | k | k]; cbn [run_op].
  - destruct tree as [[t]|]; cbn [insert_avl root].
    + destruct (insert_node_Inv k v t HI Ho) as (t' & -> & HI' & _).
      eexists. split; [reflexivity|]. split; [exact HI'|].
      cbn [snd]. split; discriminate.
    + exists None. repeat split; exact I.
  - exists tree. cbn [delete_avl snd]. repeat split; auto.
  - exists tree. repeat split; auto.
Qed.

Lemma run_ops_Inv (ops : list op) (tree : handle) :
  Inv_handle tree -> Forall op_int ops ->
  exists tree',
    run_ops ops tree = Some tree' /\ Inv_handle tree' /\
    (tree' = None <-> tree = None).
Proof.
  revert tree. induction ops as [|o ops IH]; intros tree HI Hops.
  - exists tree. repeat split; auto.
  - inversion Hops as [|? ? Ho Hops']; subst.
    destruct (run_op_Inv o tree HI Ho) as (tree1 & E1 & HI1 & N1).
    destruct (IH tree1 HI1 Hops') as (tree' & E' & HI' & N').
    exists tree'. cbn [run_ops]. rewrite E1.
    split; [exact E'|]. split; [exact HI'|]. tauto.
Qed.

Lemma createAVLTree_Inv (alloc : bool) : Inv_handle (createAVLTree alloc).
Proof.
  destruct alloc; cbn; [|exact I]. repeat split.
Qed.

Lemma reachable_Inv (tree : handle) : reachable tree -> Inv_handle tree.
Proof.
  intros (alloc & ops & Hops & Hrun).
  destruct (run_ops_Inv ops _ (createAVLTree_Inv alloc) Hops)
    as (tree' & E & HI & _).
  rewrite E in Hrun. injection Hrun as <-. exact HI.
Qed.

(** Every sequence of calls on a fresh tree returns, with a tree that
    satisfies the invariant. *)
Lemma run_ops_create (ops : list op) :
  Forall op_int ops ->
  exists t,
    run_ops ops (createAVLTree true) = Some (Some t) /\ Inv (root t).
Proof.
  intros Hops.
  destruct (run_ops_Inv ops _ (createAVLTree_Inv true) Hops)
    as (tree' & E & HI & HN).
  destruct tree' as [t|].
  - exists t. auto.
  - destruct HN as [HN _]. specialize (HN eq_refl). discriminate.
Qed.

Lemma reachable_tree_Inv (t : AVLTree) : reachable (Some t) -> Inv (root t).
Proof. intros H. exact (reachable_Inv _ H). Qed.

(** ** In-order traversal *)

Lemma all_keys_inorder (P : Z -> Prop) (t : BSTNode) :
  all_keys P t <-> Forall P (inorder t).
Proof.
  induction t as [|k v h l IHl r IHr]; spec_unfold.
  - split; auto.
  - rewrite Forall_app, Forall_cons_iff, IHl, IHr. tauto.
Qed.

Lemma StronglySorted_app_cons (l1 l2 : list Z) (x : Z) :
  StronglySorted Z.lt l1 -> StronglySorted Z.lt l2 ->
  Forall (fun y => y < x) l1 -> Forall (fun y => x < y) l2 ->
  StronglySorted Z.lt (l1 ++ x :: l2).
Proof.
  intros S1 S2 F1 F2. induction l1 as [|a l1 IH]; cbn [app].
  - constructor; assumption.
  - inversion S1 as [|? ? Sa Fa]; subst.
    inversion F1 as [|? ? Ha Fl]; subst.
    constructor; [auto|].
    rewrite Forall_app, Forall_cons_iff. repeat split; auto.
    eapply Forall_impl; [|exact F2]. cbv beta. intros; lia.
Qed.

Lemma BST_inorder_sorted (t : BSTNode) :
  BST t -> StronglySorted Z.lt (inorder t).
Proof.
  induction t as [|k v h l IHl r IHr]; spec_unfold.
  - intros _. constructor.
  - intros (Kl & Kr & Bl & Br).
    apply StronglySorted_app_cons; auto.
    + now apply all_keys_inorder in Kl.
    + now apply all_keys_inorder in Kr.
Qed.

(** ** Insertion at a key of the tree *)

Lemma rebalance_balanced (key k : Z) (v : ptr) (h : Z) (l r : BSTNode) :
  0 <= height l < INT_MAX -> 0 <= height r < INT_MAX ->
  -1 <= height r - height l <= 1 ->
  rebalance key (Node k v h l r) = Some (Node k v h l r).
Proof.
  intros Hl Hr Hb. cbn [rebalance]. int_small. decide_tests. reflexivity.
Qed.

Lemma height_set_value (key : Z) (value : ptr) (t : BSTNode) :
  height (set_value key value t) = height t.
Proof.
  destruct t as [|k v h l r]; cbn [set_value]; [reflexivity|].
  destruct (key >? k); [reflexivity|]. destruct (key <? k); reflexivity.
Qed.

Lemma erase_values_set_value (key : Z) (value : ptr) (t : BSTNode) :
  erase_values (set_value key value t) = erase_values t.
Proof.
  induction t as [|k v h l IHl r IHr]; cbn [set_value]; [reflexivity|].
  destruct (key >? k); [|destruct (key <? k)]; spec_unfold; congruence.
Qed.

Lemma node_count_erase_values (t : BSTNode) :
  node_count (erase_values t) = node_count t.
Proof.
  induction t as [|k v h l IHl r IHr]; spec_unfold; congruence.
Qed.

Lemma insert_node_update (key : Z) (value : ptr) (t : BSTNode) :
  BST t -> avl t -> height t < INT_MAX -> In key (inorder t) ->
  insert_node key value t = Some (set_value key value t).
Proof.
  induction t as [|k v h l IHl r IHr]; spec_unfold; [contradiction|].
  intros (Kl & Kr & Bl & Br) (Hh & Hb & Hl & Hr) Hlt Hin.
  pose proof (avl_height_nonneg l Hl) as Nl.
  pose proof (avl_height_nonneg r Hr) as Nr.
  apply all_keys_inorder in Kl, Kr. rewrite Forall_forall in Kl, Kr.
  apply in_app_or in Hin. cbn [insert_node set_value].
  destruct (Z.lt_total key k) as [Hk | [Hk | Hk]]; decide_tests.
  - assert (Hin' : In key (inorder l)).
    { destruct Hin as [Hin | [Hin | Hin]]; [assumption | lia |].
      apply Kr in Hin. lia. }
    rewrite IHl by (assumption || lia).
    rewrite height_set_value.
    replace (int_add 1 (MAX (height l) (height r))) with h
      by (unfold INT_MAX in Hlt; int_small; lia).
    apply rebalance_balanced; rewrite ?height_set_value; lia.
  - replace (int_add 1 (MAX (height l) (height r))) with h
      by (unfold INT_MAX in Hlt; int_small; lia).
    apply rebalance_balanced; lia.
  - assert (Hin' : In key (inorder r)).
    { destruct Hin as [Hin | [Hin | Hin]]; [|lia | assumption].
      apply Kl in Hin. lia. }
    rewrite IHr by (assumption || lia).
    rewrite height_set_value.
    replace (int_add 1 (MAX (height l) (height r))) with h
      by (unfold INT_MAX in Hlt; int_small; lia).
    apply rebalance_balanced; rewrite ?height_set_value; lia.
Qed.

Lemma lookup_absent (key : Z) (t : BSTNode) :
  ~ In key (inorder t) -> lookup key t = NULL.
Proof.
  induction t as [|k v h l IHl r IHr]; spec_unfold; cbn [lookup];
    [reflexivity|].
  intros Hn.
  destruct (Z.eqb_spec k key) as [-> | Hne].
  - elim Hn. apply in_or_app. right. left. reflexivity.
  - destruct (key <? k).
    + apply IHl. intros Hin. apply Hn, in_or_app. auto.
    + apply IHr. intros Hin. apply Hn, in_or_app. right. right. exact Hin.
Qed.

(** * The claims *)

Lemma Forall_firstn (A : Type) (P : A -> Prop) (n : nat) (l : list A) :
  Forall P l -> Forall P (firstn n l).
Proof.
  revert l. induction n as [|n IH]; intros l Hl; cbn [firstn].
  - constructor.
  - destruct Hl as [|a l Ha Hl]; constructor; auto.
Qed.

Lemma sample_ops_int : Forall op_int sample_ops.
Proof.
  unfold sample_ops.
  repeat constructor; cbn; unfold int_range, INT_MIN, INT_MAX; lia.
Defined.

Lemma sample_tree_reachable : reachable (Some sample_tree).
Proof.
  exists true, sample_ops. split; [exact sample_ops_int | reflexivity].
Defined.

(** C1. Balance invariant: for every sequence of calls of the public
    operations (insertions, removals, searches, with [int] keys) on a
    freshly created tree, every call returns, and after each of them (after
    the first [n] calls, for every [n]) every node of the tree has subtrees
    whose heights differ by at most one. *)
Theorem balance_invariant (ops : list op) (n : nat) :
  Forall op_int ops ->
  exists t,
    run_ops (firstn n ops) (createAVLTree true) = Some (Some t) /\
    balanced (root t).
Proof.
  intros Hops.
  destruct (run_ops_create (firstn n ops) (Forall_firstn _ _ n _ Hops))
    as (t & E & _ & HA & _).
  exists t. split; [exact E|]. apply avl_balanced, HA.
Qed.

Lemma balance_invariant_witness :
  Forall op_int sample_ops /\
  exists t,
    run_ops (firstn 3 sample_ops) (createAVLTree true) = Some (Some t) /\
    balanced (root t).
Proof.
  split; [exact sample_ops_int|].
  apply (balance_invariant sample_ops 3). exact sample_ops_int.
Defined.

(** C3. Search-tree order: every tree built from a fresh tree by a sequence
    of calls of the public operations satisfies the order property at every
    node (keys on the left smaller, keys on the right larger than the key
    of the node), and its in-order traversal lists the keys in strictly
    ascending order. *)
Theorem bst_ordering_invariant (ops : list op) :
  Forall op_int ops ->
  exists t,
    run_ops ops (createAVLTree true) = Some (Some t) /\
    BST (root t) /\
    StronglySorted Z.lt (inorder (root t)).
Proof.
  intros Hops.
  destruct (run_ops_create ops Hops) as (t & E & HB & _).
  exists t. split; [exact E|]. split; [exact HB|].
  apply BST_inorder_sorted, HB.
Qed.

Lemma bst_ordering_invariant_witness :
  Forall op_int sample_ops /\
  exists t,
    run_ops sample_ops (createAVLTree true) = Some (Some t) /\
    BST (root t) /\
    StronglySorted Z.lt (inorder (root t)).
Proof.
  split; [exact sample_ops_int|].
  apply (bst_ordering_invariant sample_ops). exact sample_ops_int.
Defined.

(** C4. Height correctness: after every call of a public operation, in any
    sequence of calls on a fresh tree, the height field of every node holds
    one more than the larger of the heights of its two children, the
    height of an absent child being 0; the field of the root is then the
    height of the tree. *)
Theorem height_correctness (ops : list op) (n : nat) :
  Forall op_int ops ->
  exists t,
    run_ops (firstn n ops) (createAVLTree true) = Some (Some t) /\
    heights_ok (root t) /\
    height (root t) = tree_height (root t).
Proof.
  intros Hops.
  destruct (run_ops_create (firstn n ops) (Forall_firstn _ _ n _ Hops))
    as (t & E & _ & HA & _).
  exists t. split; [exact E|]. split.
  - apply avl_heights_ok, HA.
  - apply avl_tree_height, HA.
Qed.

Lemma height_correctness_witness :
  Forall op_int sample_ops /\
  exists t,
    run_ops (firstn 2 sample_ops) (createAVLTree true) = Some (Some t) /\
    heights_ok (root t) /\
    height (root t) = tree_height (root t).
Proof.
  split; [exact sample_ops_int|].
  apply (height_correctness sample_ops 2). exact sample_ops_int.
Defined.

(** C5. Round trip: on every tree a client can hold, inserting key [K] with
    value [V] returns true, and looking [K] up in the tree afterwards
    returns [V]. *)
Theorem insert_lookup_roundtrip (t : AVLTree) (K : Z) (V : ptr) :
  reachable (Some t) -> int_range K ->
  exists t',
    insert_avl K V (Some t) = Some (true, Some t') /\
    lookup_avl K (Some t') = V.
Proof.
  intros Hr HK. apply reachable_tree_Inv in Hr.
  destruct (insert_node_Inv K V (root t) Hr HK) as (r' & E & _ & HL).
  exists (mkAVLTree r'). cbn [insert_avl lookup_avl root]. rewrite E.
  split; [reflexivity|]. rewrite HL, Z.eqb_refl. reflexivity.
Qed.

Lemma insert_lookup_roundtrip_witness :
  reachable (Some sample_tree) /\ int_range 25 /\
  exists t',
    insert_avl 25 104 (Some sample_tree) = Some (true, Some t') /\
    lookup_avl 25 (Some t') = 104.
Proof.
  assert (H25 : int_range 25) by (unfold int_range, INT_MIN, INT_MAX; lia).
  split; [exact sample_tree_reachable|]. split; [exact H25|].
  apply (insert_lookup_roundtrip sample_tree 25 104);
    [exact sample_tree_reachable | exact H25].
Defined.

(** C6. Upsert: inserting a key [K] that the tree already contains, with a
    new value [V2], returns true and yields the same tree with only the
    value stored at [K] replaced: same keys, same height fields, same shape
    (no structural change), same number of nodes (no new node), and a
    search for [K] now returns [V2]. *)
Theorem insert_existing_key (t : AVLTree) (K : Z) (V2 : ptr) :
  reachable (Some t) -> In K (inorder (root t)) ->
  exists t',
    insert_avl K V2 (Some t) = Some (true, Some t') /\
    root t' = set_value K V2 (root t) /\
    erase_values (root t') = erase_values (root t) /\
    node_count (root t') = node_count (root t) /\
    lookup_avl K (Some t') = V2.
Proof.
  intros Hr Hin. apply reachable_tree_Inv in Hr.
  pose proof (Inv_height_bound _ Hr) as Hb.
  pose proof Hr as (HB & HA & HR).
  assert (HK : int_range K).
  { apply all_keys_inorder in HR. rewrite Forall_forall in HR. auto. }
  assert (E : insert_node K V2 (root t) = Some (set_value K V2 (root t))).
  { apply insert_node_update; auto. unfold INT_MAX. lia. }
  destruct (insert_node_Inv K V2 (root t) Hr HK) as (r' & E' & _ & HL).
  rewrite E in E'. injection E' as <-.
  exists (mkAVLTree (set_value K V2 (root t))).
  cbn [insert_avl lookup_avl root]. rewrite E.
  split; [reflexivity|]. split; [reflexivity|].
  split; [apply erase_values_set_value|]. split.
  - rewrite <- node_count_erase_values, erase_values_set_value.
    apply node_count_erase_values.
  - rewrite HL, Z.eqb_refl. reflexivity.
Qed.

Lemma insert_existing_key_witness :
  reachable (Some sample_tree) /\ In 10 (inorder (root sample_tree)) /\
  exists t',
    insert_avl 10 105 (Some sample_tree) = Some (true, Some t') /\
    root t' = set_value 10 105 (root sample_tree) /\
    erase_values (root t') = erase_values (root sample_tree) /\
    node_count (root t') = node_count (root sample_tree) /\
    lookup_avl 10 (Some t') = 105.
Proof.
  assert (Hin : In 10 (inorder (root sample_tree))) by (cbn; auto).
  split; [exact sample_tree_reachable|]. split; [exact Hin|].
  apply (insert_existing_key sample_tree 10 105);
    [exact sample_tree_reachable | exact Hin].
Defined.

(** C7. Scenario 3: inserting the keys 30, 10, 20 in this order into an
    empty tree.  After 30 and 10 the root 30 has the single left child 10.
    The insertion of 20 descends to the left of 30 and to the right of 10;
    back at the root the left subtree is two higher than the right one and
    20 is larger than the key 10 of the left child, so that the left-right
    case is taken: a left rotation around the left child followed by a
    right rotation around the root.  The resulting root has key 20, left
    child 10 and right child 30. *)
Theorem scenario_left_right (v1 v2 v3 : ptr) :
  let before := Node 30 v1 2 (Node 10 v2 1 Null Null) Null in
  let l := Node 10 v2 2 Null (Node 20 v3 1 Null Null) in
  let unbalanced := Node 30 v1 3 l Null in
  let final := Node 20 v3 2 (Node 10 v2 1 Null Null)
                            (Node 30 v1 1 Null Null) in
  run_ops [Insert 30 v1; Insert 10 v2] (createAVLTree true)
    = Some (Some (mkAVLTree before)) /\
  insert_node 20 v3 (Node 10 v2 1 Null Null) = Some l /\
  int_sub (height Null) (height l) = -2 /\
  node_key l = Some 10 /\
  rebalance 20 unbalanced
    = (l' <- rotateLeft l ;; rotateRight (Node 30 v1 3 l' Null)) /\
  rebalance 20 unbalanced = Some final /\
  run_ops [Insert 30 v1; Insert 10 v2; Insert 20 v3] (createAVLTree true)
    = Some (Some (mkAVLTree final)).
Proof.
  cbv zeta. repeat split; vm_compute; reflexivity.
Qed.

(** C8. Result of an insertion: on every handle a client can hold and for
    every [int] key and every value, [insert_avl] returns, and it returns
    false exactly when the handle is null; on a tree it returns true, also
    when the key is already in the tree. *)
Theorem insert_avl_result (tree : handle) (key : Z) (value : ptr) :
  reachable tree -> int_range key ->
  exists (b : bool) (tree' : handle),
    insert_avl key value tree = Some (b, tree') /\
    (b = false <-> tree = None).
Proof.
  intros Hr Hk. apply reachable_Inv in Hr.
  destruct tree as [t|]; cbn [insert_avl].
  - destruct (insert_node_Inv key value (root t) Hr Hk) as (r' & -> & _).
    exists true, (Some (mkAVLTree r')). split; [reflexivity|].
    split; discriminate.
  - exists false, None. repeat split.
Qed.

Lemma insert_avl_result_witness :
  reachable (Some sample_tree) /\ int_range 20 /\
  exists (b : bool) (tree' : handle),
    insert_avl 20 106 (Some sample_tree) = Some (b, tree') /\
    (b = false <-> Some sample_tree = None).
Proof.
  assert (H20 : int_range 20) by (unfold int_range, INT_MIN, INT_MAX; lia).
  split; [exact sample_tree_reachable|]. split; [exact H20|].
  apply (insert_avl_result (Some sample_tree) 20 106);
    [exact sample_tree_reachable | exact H20].
Defined.

(** C9. Frame of an insertion: on every tree a client can hold, inserting
    key [K] with value [V] leaves the result of a search for any other key
    [K'] as it was before the insertion. *)
Theorem insert_frame (t : AVLTree) (K K' : Z) (V : ptr) :
  reachable (Some t) -> int_range K -> K' <> K ->
  exists t',
    insert_avl K V (Some t) = Some (true, Some t') /\
    lookup_avl K' (Some t') = lookup_avl K' (Some t).
Proof.
  intros Hr HK Hne. apply reachable_tree_Inv in Hr.
  destruct (insert_node_Inv K V (root t) Hr HK) as (r' & E & _ & HL).
  exists (mkAVLTree r'). cbn [insert_avl lookup_avl root]. rewrite E.
  split; [reflexivity|]. rewrite HL.
  destruct (Z.eqb_spec K' K); [contradiction | reflexivity].
Qed.

Lemma insert_frame_witness :
  reachable (Some sample_tree) /\ int_range 25 /\ 30 <> 25 /\
  exists t',
    insert_avl 25 104 (Some sample_tree) = Some (true, Some t') /\
    lookup_avl 30 (Some t') = lookup_avl 30 (Some sample_tree).
Proof.
  assert (H25 : int_range 25) by (unfold int_range, INT_MIN, INT_MAX; lia).
  assert (Hne : 30 <> 25) by lia.
  split; [exact sample_tree_reachable|]. split; [exact H25|].
  split; [exact Hne|].
  apply (insert_frame sample_tree 25 30 104);
    [exact sample_tree_reachable | exact H25 | exact Hne].
Defined.

(** C10. A search through a null handle returns [NULL], and so does a
    search for a key that a tree does not contain: the two results are the
    same. *)
Theorem lookup_avl_null_handle (t : AVLTree) (key : Z) :
  ~ In key (inorder (root t)) ->
  lookup_avl key None = NULL /\
  lookup_avl key (Some t) = NULL /\
  lookup_avl key None = lookup_avl key (Some t).
Proof.
  intros Hn. cbn [lookup_avl]. rewrite (lookup_absent key (root t) Hn).
  repeat split.
Qed.

Lemma lookup_avl_null_handle_witness :
  ~ In 15 (inorder (root sample_tree)) /\
  lookup_avl 15 None = NULL /\
  lookup_avl 15 (Some sample_tree) = NULL /\
  lookup_avl 15 None = lookup_avl 15 (Some sample_tree).
Proof.
  assert (Hn : ~ In 15 (inorder (root sample_tree))).
  { cbn. intros [H | [H | [H | H]]]; try discriminate H. exact H. }
  split; [exact Hn|].
  apply (lookup_avl_null_handle sample_tree 15). exact Hn.
Defined.

(** C2. Removal, on the code as it is: [delete_avl] returns [NULL] and
    leaves the tree as it was, whatever the key.  On the tree holding key 1
    with the non-null value 42, the removal of key 1 returns [NULL], not
    42, and a search for key 1 afterwards still returns 42. *)
Theorem delete_avl_does_nothing :
  (forall key tree, delete_avl key tree = (NULL, tree)) /\
  exists tree,
    run_ops [Insert 1 42] (createAVLTree true) = Some tree /\
    lookup_avl 1 tree = 42 /\
    fst (delete_avl 1 tree) = NULL /\
    lookup_avl 1 (snd (delete_avl 1 tree)) = 42 /\
    42 <> NULL.
Proof.
  split; [reflexivity|].
  eexists. split; [reflexivity|]. repeat split. discriminate.
Qed.

(** * Further properties of the code *)

(** ** Rotations *)

Lemma rotateRight_inorder (t t' : BSTNode) :
  rotateRight t = Some t' -> inorder t' = inorder t.
Proof.
  destruct t as [|k v h [|lk lv lh ll lr] r]; try discriminate.
  cbn [rotateRight]. intros [= <-]. spec_unfold.
  rewrite <- app_assoc. reflexivity.
Qed.

Lemma rotateLeft_inorder (t t' : BSTNode) :
  rotateLeft t = Some t' -> inorder t' = inorder t.
Proof.
  destruct t as [|k v h l [|rk rv rh rl rr]]; try discriminate.
  cbn [rotateLeft]. intros [= <-]. spec_unfold.
  rewrite <- app_assoc. reflexivity.
Qed.

Lemma node_count_inorder (t : BSTNode) :
  node_count t = Z.of_nat (List.length (inorder t)).
Proof.
  induction t as [|k v h l IHl r IHr]; spec_unfold; [reflexivity|].
  rewrite length_app. cbn [List.length]. lia.
Qed.


(** X2. The two rotations undo each other: on a node whose height field and
    whose left child's height field hold the values the code maintains
    (one more than the larger child height, within the range of [int]), a
    right rotation followed by a left rotation of the result gives the
    node back, height fields included; and symmetrically. *)
Theorem rotations_inverse (k lk : Z) (v lv : ptr) (a b c : BSTNode) :
  let hc := 1 + Z.max (height a) (height b) in
  let hp := 1 + Z.max hc (height c) in
  let hc' := 1 + Z.max (height b) (height c) in
  let hp' := 1 + Z.max (height a) hc' in
  int_range hc -> int_range hp -> int_range hc' -> int_range hp' ->
  (exists t',
     rotateRight (Node k v hp (Node lk lv hc a b) c) = Some t' /\
     rotateLeft t' = Some (Node k v hp (Node lk lv hc a b) c)) /\
  (exists t',
     rotateLeft (Node lk lv hp' a (Node k v hc' b c)) = Some t' /\
     rotateRight t' = Some (Node lk lv hp' a (Node k v hc' b c))).
Proof.
  cbv zeta. intros H1 H2 H3 H4.
  assert (E : forall x y,
             int_range (1 + Z.max x y) ->
             int_add 1 (MAX x y) = 1 + Z.max x y).
  { intros x y H. rewrite MAX_max. apply int_add_small, H. }
  split.
  - eexists. split; [reflexivity|].
    cbn [rotateRight rotateLeft height].
    rewrite (E (height a) (height b)) by assumption.
    rewrite (E _ (height c)) by assumption.
    reflexivity.
  - eexists. split; [reflexivity|].
    cbn [rotateRight rotateLeft height].
    rewrite (E (height b) (height c)) by assumption.
    rewrite (E (height a) _) by assumption.
    reflexivity.
Qed.

Lemma rotations_inverse_witness :
  let a := Node 1 0 1 Null Null in
  int_range 2 /\ int_range 3 /\ int_range 1 /\ int_range 2 /\
  (exists t',
     rotateRight (Node 5 0 3 (Node 3 0 2 a Null) Null) = Some t' /\
     rotateLeft t' = Some (Node 5 0 3 (Node 3 0 2 a Null) Null)) /\
  (exists t',
     rotateLeft (Node 3 0 2 a (Node 5 0 1 Null Null)) = Some t' /\
     rotateRight t' = Some (Node 3 0 2 a (Node 5 0 1 Null Null))).
Proof.
  cbv zeta.
  assert (R1 : int_range 1) by (unfold int_range, INT_MIN, INT_MAX; lia).
  assert (R2 : int_range 2) by (unfold int_range, INT_MIN, INT_MAX; lia).
  assert (R3 : int_range 3) by (unfold int_range, INT_MIN, INT_MAX; lia).
  split; [exact R2|]. split; [exact R3|]. split; [exact R1|].
  split; [exact R2|].
  exact (rotations_inverse 5 3 0 0 (Node 1 0 1 Null Null) Null Null
           R2 R3 R1 R2).
Defined.

(** ** Searches *)

Lemma binds_all_keys (P : Z -> Prop) (key : Z) (value : ptr) (t : BSTNode) :
  all_keys P t -> binds key value t -> P key.
Proof.
  induction t as [|k v h l IHl r IHr]; spec_unfold; cbn [binds];
    [contradiction|].
  intros (Pk & Pl & Pr) [[<- _] | [H | H]]; auto.
Qed.

(** X3. A search finds every binding of a search tree: if the tree is
    ordered and has a node with key [key] and value [value], then [lookup]
    returns [value]. *)
Theorem lookup_complete (key : Z) (value : ptr) (t : BSTNode) :
  BST t -> binds key value t -> lookup key t = value.
Proof.
  induction t as [|k v h l IHl r IHr]; spec_unfold; cbn [binds lookup];
    [contradiction|].
  intros (Kl & Kr & Bl & Br) [[Hk Hv] | [H | H]].
  - subst. rewrite Z.eqb_refl. reflexivity.
  - pose proof (binds_all_keys _ _ _ _ Kl H) as Hlt. cbv beta in Hlt.
    decide_tests. auto.
  - pose proof (binds_all_keys _ _ _ _ Kr H) as Hgt. cbv beta in Hgt.
    decide_tests. auto.
Qed.

Lemma lookup_complete_witness :
  BST (root sample_tree) /\ binds 30 101 (root sample_tree) /\
  lookup 30 (root sample_tree) = 101.
Proof.
  assert (HB : BST (root sample_tree)) by (cbn; repeat split; lia).
  assert (Hb : binds 30 101 (root sample_tree)) by (cbn; auto).
  split; [exact HB|]. split; [exact Hb|].
  exact (lookup_complete 30 101 (root sample_tree) HB Hb).
Defined.

(** X4. A search never invents a value: whatever the node structure, a
    result of [lookup] other than [NULL] is the value of a node with the
    searched key. *)
Theorem lookup_sound (key : Z) (t : BSTNode) :
  lookup key t <> NULL -> binds key (lookup key t) t.
Proof.
  induction t as [|k v h l IHl r IHr]; cbn [lookup binds].
  - intros H. now elim H.
  - destruct (Z.eqb_spec k key) as [-> | Hne]; [auto|].
    destruct (key <? k); auto.
Qed.

Lemma lookup_sound_witness :
  lookup 10 (root sample_tree) <> NULL /\
  binds 10 (lookup 10 (root sample_tree)) (root sample_tree).
Proof.
  assert (H : lookup 10 (root sample_tree) <> NULL) by (cbn; discriminate).
  split; [exact H|]. exact (lookup_sound 10 (root sample_tree) H).
Defined.

(** ** Insertion and the sequence of the keys *)

Lemma rebalance_inorder (key : Z) (t t' : BSTNode) :
  rebalance key t = Some t' -> inorder t' = inorder t.
Proof.
  destruct t as [|k v h l r]; [discriminate|].
  intros H. apply rebalance_cases in H.
  destruct H as [-> | [H | [H | [(l' & Hl & H) | (r' & Hr & H)]]]].
  - reflexivity.
  - now apply rotateRight_inorder.
  - now apply rotateLeft_inorder.
  - rewrite (rotateRight_inorder _ _ H). spec_unfold.
    now rewrite (rotateLeft_inorder _ _ Hl).
  - rewrite (rotateLeft_inorder _ _ H). spec_unfold.
    now rewrite (rotateRight_inorder _ _ Hr).
Qed.

(** Either the key is met on the way down and the sequence of the keys is
    unchanged, or the key is added at one place of the sequence. *)
Lemma insert_node_inorder (key : Z) (value : ptr) (t t' : BSTNode) :
  insert_node key value t = Some t' ->
  (In key (inorder t) /\ inorder t' = inorder t) \/
  (exists l1 l2, inorder t = l1 ++ l2 /\ inorder t' = l1 ++ key :: l2).
Proof.
  revert t'. induction t as [|k v h l IHl r IHr]; intros t';
    cbn [insert_node].
  - intros [= <-]. right. exists [], []. split; reflexivity.
  - destruct (Z.lt_total key k) as [Hk | [Hk | Hk]]; decide_tests.
    + destruct (insert_node key value l) as [l'|] eqn:El; [|discriminate].
      intros H. apply rebalance_inorder in H. rewrite H. spec_unfold.
      destruct (IHl l' eq_refl) as [[Hin ->] | (l1 & l2 & E1 & ->)].
      * left. split; [|reflexivity]. apply in_or_app. auto.
      * right. exists l1, (l2 ++ k :: inorder r). rewrite E1.
        rewrite <- !app_assoc. split; reflexivity.
    + subst key. intros H. apply rebalance_inorder in H. rewrite H.
      spec_unfold. left. split; [|reflexivity].
      apply in_or_app. right. left. reflexivity.
    + destruct (insert_node key value r) as [r'|] eqn:Er; [|discriminate].
      intros H. apply rebalance_inorder in H. rewrite H. spec_unfold.
      destruct (IHr r' eq_refl) as [[Hin ->] | (l1 & l2 & E1 & ->)].
      * left. split; [|reflexivity]. apply in_or_app. right. right. exact Hin.
      * right. exists (inorder l ++ k :: l1), l2. rewrite E1.
        rewrite <- !app_assoc. split; reflexivity.
Qed.

Lemma insert_node_In (key : Z) (value : ptr) (t t' : BSTNode) (x : Z) :
  insert_node key value t = Some t' ->
  (In x (inorder t') <-> x = key \/ In x (inorder t)).
Proof.
  intros H.
  destruct (insert_node_inorder key value t t' H)
    as [[Hin ->] | (l1 & l2 & -> & ->)].
  - split; [auto|]. intros [-> | Hx]; assumption.
  - rewrite !in_app_iff. cbn [In]. split.
    + intros [Hx | [Hx | Hx]]; auto.
    + intros [Hx | [Hx | Hx]]; auto.
Qed.

(** X5. Inserting a key that the tree does not hold adds exactly one node:
    the insertion returns true, the in-order sequence of the keys of the
    new tree is the old one with the key put in at one place (the place
    that keeps it ascending), and the number of nodes grows by one. *)
Theorem insert_new_key (t : AVLTree) (K : Z) (V : ptr) :
  reachable (Some t) -> int_range K -> ~ In K (inorder (root t)) ->
  exists t' l1 l2,
    insert_avl K V (Some t) = Some (true, Some t') /\
    inorder (root t) = l1 ++ l2 /\
    inorder (root t') = l1 ++ K :: l2 /\
    StronglySorted Z.lt (inorder (root t')) /\
    node_count (root t') = node_count (root t) + 1.
Proof.
  intros Hr HK Hn. apply reachable_tree_Inv in Hr.
  destruct (insert_node_Inv K V (root t) Hr HK) as (r' & E & (HB' & _) & _).
  destruct (insert_node_inorder K V (root t) r' E)
    as [[Hin _] | (l1 & l2 & E1 & E2)]; [contradiction|].
  exists (mkAVLTree r'), l1, l2. cbn [insert_avl root]. rewrite E.
  split; [reflexivity|]. split; [exact E1|]. split; [exact E2|].
  split; [apply BST_inorder_sorted, HB'|].
  rewrite !node_count_inorder, E1, E2, !length_app. cbn [List.length]. lia.
Qed.

Lemma insert_new_key_witness :
  reachable (Some sample_tree) /\ int_range 25 /\
  ~ In 25 (inorder (root sample_tree)) /\
  exists t' l1 l2,
    insert_avl 25 104 (Some sample_tree) = Some (true, Some t') /\
    inorder (root sample_tree) = l1 ++ l2 /\
    inorder (root t') = l1 ++ 25 :: l2 /\
    StronglySorted Z.lt (inorder (root t')) /\
    node_count (root t') = node_count (root sample_tree) + 1.
Proof.
  assert (H25 : int_range 25) by (unfold int_range, INT_MIN, INT_MAX; lia).
  assert (Hn : ~ In 25 (inorder (root sample_tree))).
  { cbn. intros [H | [H | [H | H]]]; try discriminate H. exact H. }
  split; [exact sample_tree_reachable|]. split; [exact H25|].
  split; [exact Hn|].
  exact (insert_new_key sample_tree 25 104 sample_tree_reachable H25 Hn).
Defined.

(** ** Sequences of calls as a finite map *)

Lemma run_ops_model (ops : list op) :
  forall (t : AVLTree) (m : Z -> ptr),
    Inv (root t) -> Forall op_int ops ->
    (forall x, lookup x (root t) = m x) ->
    exists t',
      run_ops ops (Some t) = Some (Some t') /\
      Inv (root t') /\
      (forall x, lookup x (root t') = fold_left apply_op ops m x) /\
      (forall x, In x (inorder (root t')) <->
                 In x (inserted_keys ops) \/ In x (inorder (root t))).
Proof.
  induction ops as [|o ops IH]; intros t m HI Hops Hm.
  - exists t. cbn [run_ops fold_left inserted_keys flat_map In].
    split; [reflexivity|]. split; [exact HI|]. split; [exact Hm|].
    intros x. tauto.
  - inversion Hops as [|? ? Ho Hops']; subst.
    destruct o as [k v | k | k]; cbn [run_ops run_op fold_left apply_op].
    + cbn [insert_avl].
      destruct (insert_node_Inv k v (root t) HI Ho) as (r' & E & HI' & HL).
      rewrite E. cbn [snd].
      destruct (IH (mkAVLTree r') (fun x => if x =? k then v else m x))
        as (t' & E' & HI'' & HL' & HK'); auto.
      { intros x. cbn [root]. rewrite HL, Hm. reflexivity. }
      exists t'. split; [exact E'|]. split; [exact HI''|].
      split; [exact HL'|].
      intros x. rewrite HK'. cbn [root inserted_keys flat_map app In].
      rewrite (insert_node_In k v (root t) r' x E).
      fold (inserted_keys ops). split.
      * intros [H | [H | H]]; auto.
      * intros [[H | H] | H]; auto.
    + cbn [delete_avl snd].
      destruct (IH t m HI Hops' Hm) as (t' & E' & HI' & HL' & HK').
      exists t'. split; [exact E'|]. split; [exact HI'|].
      split; [exact HL' | exact HK'].
    + destruct (IH t m HI Hops' Hm) as (t' & E' & HI' & HL' & HK').
      exists t'. split; [exact E'|]. split; [exact HI'|].
      split; [exact HL' | exact HK'].
Qed.

(** X6. The tree is a finite map: after any sequence of calls of the
    public operations on a fresh tree, a search for a key returns the value
    of the last insertion of that key in the sequence, and [NULL] when the
    sequence has none.  Removals count for nothing here, [delete_avl] being
    without effect. *)
Theorem lookup_after_ops (ops : list op) :
  Forall op_int ops ->
  exists t,
    run_ops ops (createAVLTree true) = Some (Some t) /\
    forall x, lookup_avl x (Some t) = model ops x.
Proof.
  intros Hops.
  destruct (run_ops_model ops (mkAVLTree Null) (fun _ => NULL))
    as (t' & E & _ & HL & _); auto.
  - repeat split.
  - exists t'. split; [exact E|]. exact HL.
Qed.

Lemma lookup_after_ops_witness :
  Forall op_int sample_ops /\
  exists t,
    run_ops sample_ops (createAVLTree true) = Some (Some t) /\
    forall x, lookup_avl x (Some t) = model sample_ops x.
Proof.
  split; [exact sample_ops_int|].
  exact (lookup_after_ops sample_ops sample_ops_int).
Defined.

(** X7. The keys of the tree: after any sequence of calls of the public
    operations on a fresh tree, the tree holds exactly the keys that the
    sequence has inserted, each once, in ascending order; no call removes
    a key. *)
Theorem keys_after_ops (ops : list op) :
  Forall op_int ops ->
  exists t,
    run_ops ops (createAVLTree true) = Some (Some t) /\
    (forall x, In x (inorder (root t)) <-> In x (inserted_keys ops)) /\
    NoDup (inorder (root t)).
Proof.
  intros Hops.
  destruct (run_ops_model ops (mkAVLTree Null) (fun _ => NULL))
    as (t' & E & (HB & _) & _ & HK); auto.
  - repeat split.
  - exists t'. split; [exact E|]. split.
    + intros x. rewrite HK. cbn. tauto.
    + apply BST_inorder_sorted in HB.
      clear - HB. induction HB as [|a l Hs IH Ha]; constructor; auto.
      intros Hin. rewrite Forall_forall in Ha. specialize (Ha a Hin). lia.
Qed.

Lemma keys_after_ops_witness :
  Forall op_int sample_ops /\
  exists t,
    run_ops sample_ops (createAVLTree true) = Some (Some t) /\
    (forall x, In x (inorder (root t)) <-> In x (inserted_keys sample_ops)) /\
    NoDup (inorder (root t)).
Proof.
  split; [exact sample_ops_int|].
  exact (keys_after_ops sample_ops sample_ops_int).
Defined.

(** ** More on single insertions *)

Lemma set_value_same (key : Z) (t : BSTNode) :
  BST t -> In key (inorder t) -> set_value key (lookup key t) t = t.
Proof.
  induction t as [|k v h l IHl r IHr]; spec_unfold; [contradiction|].
  intros (Kl & Kr & Bl & Br) Hin.
  apply all_keys_inorder in Kl, Kr. rewrite Forall_forall in Kl, Kr.
  apply in_app_or in Hin. cbn [set_value lookup].
  destruct (Z.lt_total key k) as [Hk | [Hk | Hk]]; decide_tests.
  - rewrite IHl; auto.
    destruct Hin as [Hin | [Hin | Hin]]; [assumption | lia |].
    apply Kr in Hin. lia.
  - reflexivity.
  - rewrite IHr; auto.
    destruct Hin as [Hin | [Hin | Hin]]; [|lia | assumption].
    apply Kl in Hin. lia.
Qed.

(** X8. Inserting the same key and value a second time changes nothing:
    the second call returns true and leaves the very tree that the first
    call has built. *)
Theorem insert_twice (t : AVLTree) (K : Z) (V : ptr) :
  reachable (Some t) -> int_range K ->
  exists t1,
    insert_avl K V (Some t) = Some (true, Some t1) /\
    insert_avl K V (Some t1) = Some (true, Some t1).
Proof.
  intros Hr HK. apply reachable_tree_Inv in Hr.
  destruct (insert_node_Inv K V (root t) Hr HK) as (r1 & E & HI1 & HL).
  exists (mkAVLTree r1). cbn [insert_avl root]. rewrite E.
  split; [reflexivity|].
  assert (Hin : In K (inorder r1)).
  { apply (insert_node_In K V (root t) r1 K E). left. reflexivity. }
  pose proof (Inv_height_bound r1 HI1) as Hb.
  destruct HI1 as (HB1 & HA1 & _).
  rewrite (insert_node_update K V r1 HB1 HA1); [|unfold INT_MAX; lia | exact Hin].
  assert (HV : lookup K r1 = V) by (rewrite HL, Z.eqb_refl; reflexivity).
  rewrite <- HV at 1. rewrite (set_value_same K r1 HB1 Hin). reflexivity.
Qed.

Lemma insert_twice_witness :
  reachable (Some sample_tree) /\ int_range 25 /\
  exists t1,
    insert_avl 25 104 (Some sample_tree) = Some (true, Some t1) /\
    insert_avl 25 104 (Some t1) = Some (true, Some t1).
Proof.
  assert (H25 : int_range 25) by (unfold int_range, INT_MIN, INT_MAX; lia).
  split; [exact sample_tree_reachable|]. split; [exact H25|].
  exact (insert_twice sample_tree 25 104 sample_tree_reachable H25).
Defined.

(** X9. An insertion never lowers the tree and raises it by at most one
    level: the height of the tree after the call is the height before, or
    one more. *)
Theorem insert_height_step (t : AVLTree) (K : Z) (V : ptr) :
  reachable (Some t) -> int_range K ->
  exists t',
    insert_avl K V (Some t) = Some (true, Some t') /\
    (tree_height (root t') = tree_height (root t) \/
     tree_height (root t') = tree_height (root t) + 1).
Proof.
  intros Hr HK. apply reachable_tree_Inv in Hr.
  pose proof (Inv_height_bound _ Hr) as Hb.
  destruct Hr as (_ & HA & _).
  destruct (insert_node_avl K V (root t) HA) as (r' & E & HA' & Hh & _).
  { unfold INT_MAX. lia. }
  exists (mkAVLTree r'). cbn [insert_avl root]. rewrite E.
  split; [reflexivity|].
  rewrite <- (avl_tree_height r' HA'), <- (avl_tree_height (root t) HA).
  exact Hh.
Qed.

Lemma insert_height_step_witness :
  reachable (Some sample_tree) /\ int_range 25 /\
  exists t',
    insert_avl 25 104 (Some sample_tree) = Some (true, Some t') /\
    (tree_height (root t') = tree_height (root sample_tree) \/
     tree_height (root t') = tree_height (root sample_tree) + 1).
Proof.
  assert (H25 : int_range 25) by (unfold int_range, INT_MIN, INT_MAX; lia).
  split; [exact sample_tree_reachable|]. split; [exact H25|].
  exact (insert_height_step sample_tree 25 104 sample_tree_reachable H25).
Defined.

(** X10. The height is logarithmic in the number of nodes, and the height
    fields stay far from the limits of [int]: every tree a client can hold
    has at least [2^(h/2) - 1] nodes, [h] being its height, and [h] is at
    most 65, so that no addition on heights in the code ever wraps. *)
Theorem height_logarithmic (t : AVLTree) :
  reachable (Some t) ->
  2 ^ (tree_height (root t) / 2) <= node_count (root t) + 1 /\
  height (root t) = tree_height (root t) /\
  0 <= height (root t) <= 65.
Proof.
  intros Hr. apply reachable_tree_Inv in Hr.
  pose proof (Inv_height_bound _ Hr) as Hb.
  destruct Hr as (_ & HA & _).
  rewrite <- (avl_tree_height _ HA).
  split; [apply avl_node_count, HA|]. split; [reflexivity | exact Hb].
Qed.

Lemma height_logarithmic_witness :
  reachable (Some sample_tree) /\
  2 ^ (tree_height (root sample_tree) / 2)
    <= node_count (root sample_tree) + 1 /\
  height (root sample_tree) = tree_height (root sample_tree) /\
  0 <= height (root sample_tree) <= 65.
Proof.
  split; [exact sample_tree_reachable|].
  exact (height_logarithmic sample_tree sample_tree_reachable).
Defined.

(** X11. A key stored with the value [NULL] cannot be told from a missing
    key: after the insertion of [K] with [NULL] the tree holds a node for
    [K], and a search for [K] returns [NULL], the result of a search for a
    key that is not there. *)
Theorem insert_null_value (t : AVLTree) (K : Z) :
  reachable (Some t) -> int_range K ->
  exists t',
    insert_avl K NULL (Some t) = Some (true, Some t') /\
    In K (inorder (root t')) /\
    lookup_avl K (Some t') = NULL.
Proof.
  intros Hr HK. apply reachable_tree_Inv in Hr.
  destruct (insert_node_Inv K NULL (root t) Hr HK) as (r' & E & _ & HL).
  exists (mkAVLTree r'). cbn [insert_avl lookup_avl root]. rewrite E.
  split; [reflexivity|]. split.
  - apply (insert_node_In K NULL (root t) r' K E). left. reflexivity.
  - rewrite HL, Z.eqb_refl. reflexivity.
Qed.

Lemma insert_null_value_witness :
  reachable (Some sample_tree) /\ int_range 25 /\
  exists t',
    insert_avl 25 NULL (Some sample_tree) = Some (true, Some t') /\
    In 25 (inorder (root t')) /\
    lookup_avl 25 (Some t') = NULL.
Proof.
  assert (H25 : int_range 25) by (unfold int_range, INT_MIN, INT_MAX; lia).
  split; [exact sample_tree_reachable|]. split; [exact H25|].
  exact (insert_null_value sample_tree 25 sample_tree_reachable H25).
Defined.

(** ** Printing *)

Lemma string_app_assoc (a b c : string) :
  ((a ++ b) ++ c = a ++ (b ++ c))%string.
Proof.
  induction a as [|ch a IH]; cbn [String.append]; [reflexivity|].
  now rewrite IH.
Qed.

Lemma print_lines_app (ps qs : list (Z * Z)) :
  print_lines (ps ++ qs) = (print_lines ps ++ print_lines qs)%string.
Proof.
  induction ps as [|p ps IH]; cbn [app print_lines fold_right];
    [reflexivity|].
  fold (print_lines (ps ++ qs)). fold (print_lines ps).
  now rewrite IH, string_app_assoc.
Qed.

Lemma tree_height_nonneg (t : BSTNode) : 0 <= tree_height t.
Proof. induction t; spec_unfold; lia. Qed.

Lemma print_nodes_lines (t : BSTNode) (d : Z) :
  0 <= d -> INDENT * (d + tree_height t) <= INT_MAX ->
  print_nodes t (INDENT * d) = print_lines (preorder t d).
Proof.
  revert d. induction t as [|k v h l IHl r IHr]; intros d Hd Hb;
    cbn [print_nodes preorder]; [reflexivity|].
  spec_unfold.
  pose proof (tree_height_nonneg l) as Nl.
  pose proof (tree_height_nonneg r) as Nr.
  unfold INDENT, INT_MAX in *.
  replace (int_add (5 * d) 5) with (5 * (d + 1))
    by (rewrite int_add_small; unfold INT_MIN, INT_MAX; lia).
  change 5 with INDENT.
  rewrite IHl, IHr by (unfold INDENT, INT_MAX; lia).
  cbn [print_lines fold_right].
  fold (print_lines (preorder l (d + 1) ++ preorder r (d + 1))).
  rewrite print_lines_app. unfold print_line. cbn [fst snd].
  now rewrite !string_app_assoc.
Qed.

(** The text printed for the sample tree. *)
Example print_tree_sample :
  print_tree (Some sample_tree)
  = Some ("  20" ++ newline ++
          "       10" ++ newline ++
          "       30" ++ newline)%string.
Proof. reflexivity. Qed.

(** X12. [print_tree] writes one line per node, in pre-order (a node, its
    left subtree, its right subtree), each line made of five spaces per
    level below the root, the key in a field of four characters and a
    newline.  This holds on every tree a client can hold; on the null
    handle [print_tree] dereferences a null pointer. *)
Theorem print_tree_output (tree : handle) :
  reachable tree ->
  match tree with
  | None => print_tree tree = None
  | Some t => print_tree tree = Some (print_lines (preorder (root t) 0))
  end.
Proof.
  intros Hr. destruct tree as [t|]; [|reflexivity].
  apply reachable_tree_Inv in Hr.
  pose proof (Inv_height_bound _ Hr) as Hb.
  destruct Hr as (_ & HA & _). rewrite (avl_tree_height _ HA) in Hb.
  cbn [print_tree]. f_equal.
  change 0 with (INDENT * 0) at 1.
  apply print_nodes_lines; [lia|]. unfold INDENT, INT_MAX. lia.
Qed.

Lemma print_tree_output_witness :
  reachable (Some sample_tree) /\
  print_tree (Some sample_tree)
  = Some (print_lines (preorder (root sample_tree) 0)).
Proof.
  split; [exact sample_tree_reachable|].
  exact (print_tree_output (Some sample_tree) sample_tree_reachable).
Defined.

(** ** Teardown *)

Lemma freeNode_inorder (t : BSTNode) : Permutation (freeNode t) (inorder t).
Proof.
  induction t as [|k v h l IHl r IHr]; cbn [freeNode inorder];
    [constructor|].
  apply Permutation_app; [exact IHl|].
  eapply Permutation_trans; [|apply Permutation_sym, Permutation_cons_append].
  apply Permutation_app_tail, Permutation_sym. symmetry. exact IHr.
Qed.

Lemma BST_inorder_NoDup (t : BSTNode) : BST t -> NoDup (inorder t).
Proof.
  intros HB. apply BST_inorder_sorted in HB.
  induction HB as [|a l Hs IH Ha]; constructor; auto.
  intros Hin. rewrite Forall_forall in Ha. specialize (Ha a Hin). lia.
Qed.

(** X13. [freeTree] does nothing on the null handle.  On a tree a client
    can hold it frees every node exactly once and then the tree structure
    itself: the blocks freed are the nodes of the tree and the handle, with
    no block freed twice, and there is one call of [free] per node plus
    one.  The values are never freed. *)
Theorem freeTree_blocks (tree : handle) :
  reachable tree ->
  match tree with
  | None => freeTree tree = []
  | Some t =>
      NoDup (freeTree tree) /\
      Permutation (freeTree tree)
                  (TreeBlock :: map NodeBlock (inorder (root t))) /\
      Z.of_nat (List.length (freeTree tree)) = node_count (root t) + 1
  end.
Proof.
  intros Hr. destruct tree as [t|]; [|reflexivity].
  apply reachable_tree_Inv in Hr. destruct Hr as (HB & _).
  assert (HP : Permutation (freeTree (Some t))
                 (TreeBlock :: map NodeBlock (inorder (root t)))).
  { cbn [freeTree].
    eapply Permutation_trans;
      [apply Permutation_sym, Permutation_cons_append|].
    apply perm_skip, Permutation_map, freeNode_inorder. }
  split; [|split; [exact HP|]].
  - eapply Permutation_NoDup; [apply Permutation_sym, HP|].
    constructor.
    + rewrite in_map_iff. intros (x & Hx & _). discriminate Hx.
    + apply Finite.Injective_map_NoDup.
      * intros x y [= ->]. reflexivity.
      * apply BST_inorder_NoDup, HB.
  - rewrite (Permutation_length HP). cbn [List.length].
    rewrite length_map, node_count_inorder. lia.
Qed.

Lemma freeTree_blocks_witness :
  reachable (Some sample_tree) /\
  NoDup (freeTree (Some sample_tree)) /\
  Permutation (freeTree (Some sample_tree))
              (TreeBlock :: map NodeBlock (inorder (root sample_tree))) /\
  Z.of_nat (List.length (freeTree (Some sample_tree)))
  = node_count (root sample_tree) + 1.
Proof.
  split; [exact sample_tree_reachable|].
  exact (freeTree_blocks (Some sample_tree) sample_tree_reachable).
Defined.
